(** * CoreRipperX: the AVX2 load generator [PerformHeavyLoad]

    A shallow embedding of [AVX2Operations/AVX2Operations.cpp].  The
    translation unit exports one function,

<<
    extern "C" __declspec(dllexport) void PerformHeavyLoad()
    {
        __m256i vec = _mm256_set1_epi32(1);
        for (int i = 0; i < 1000000000; i++)
        {
            vec = _mm256_add_epi32(vec, _mm256_set1_epi32(1));
        }
    }
>>

    The development has three layers: the C [int] loop counter, the 256-bit
    register with the two AVX2 intrinsics the function calls, and the
    function itself as a loop over its stack frame.  The function is also
    run on a machine whose memory, globals and files travel through every
    statement, for what the call does to the state outside the frame.

    The loop is run on a budget of iterations ([fuel]); a run that uses the
    budget up stops at the loop head with the frame it reached, which is
    how the frame after [k] iterations is read off.  A budget of 1000000000
    covers the whole loop, and every statement about a completed call says
    so.  [int] is taken 32 bits wide, and its overflow as undefined. *)

From Stdlib Require Import ZArith NArith List Lia Bool.
Import ListNotations.

Local Open Scope Z_scope.

(** ** The C [int] of the loop counter *)

Module CInt.

(** [int] is 32 bits wide on the target (MSVC, Win32/Win64). *)
Definition INT_MAX : Z := 2147483647.

(** [i++] on a signed [int].  Overflow of a signed integer is undefined
    behaviour in C++, so the increment is partial: [None] stands for the
    undefined case. *)
Definition incr (i : Z) : option Z :=
  if i <? INT_MAX then Some (i + 1) else None.

End CInt.

(** ** The 256-bit integer register and the intrinsics of [<immintrin.h>]

  [__m256i] is a 256-bit pattern, kept as the number it spells.  The two
  intrinsics are compiler built-ins (they are not code of this
  repository); they are embedded from the operation Intel documents for
  them, quoted above each definition. *)

Module Avx2.

Definition m256i : Type := Z.

(** Number of 32-bit lanes of a 256-bit register. *)
Definition LANES : nat := 8.

(** The low 32 bits of an integer: what a store into a 32-bit lane keeps. *)
Definition wrap32 (x : Z) : Z := x mod 2 ^ 32.

(** [v[32*j+31 : 32*j]], read as an unsigned number. *)
Definition lane (v : m256i) (j : nat) : Z :=
  Z.land (Z.shiftr v (32 * Z.of_nat j)) (Z.ones 32).

(** The eight lanes, lane 0 first. *)
Definition lanes (v : m256i) : list Z := map (lane v) (seq 0 LANES).

(** Lay 32-bit fields side by side, the head of the list in the low bits. *)
Fixpoint pack (ls : list Z) : Z :=
  match ls with
  | [] => 0
  | x :: rest => Z.lor x (Z.shiftl (pack rest) 32)
  end.

(** The loop shared by both intrinsics,
<<
    FOR j := 0 to 7
        i := j*32
        dst[i+31:i] := e(j)
    ENDFOR
    dst[MAX:256] := 0
>>
    where the store keeps the low 32 bits of [e(j)]. *)
Definition for_each_lane (e : nat -> Z) : m256i :=
  pack (map (fun j => wrap32 (e j)) (seq 0 LANES)).

(** [_mm256_set1_epi32(a)]: broadcast the 32-bit integer [a] to all lanes,
    [dst[i+31:i] := a[31:0]]. *)
Definition _mm256_set1_epi32 (a : Z) : m256i :=
  for_each_lane (fun _ => a).

(** [_mm256_add_epi32(a, b)] (VPADDD): add packed 32-bit integers,
    [dst[i+31:i] := a[i+31:i] + b[i+31:i]]. *)
Definition _mm256_add_epi32 (a b : m256i) : m256i :=
  for_each_lane (fun j => lane a j + lane b j).

(** A value that fits a 32-bit lane. *)
Definition fits32 (x : Z) : Prop := 0 <= x < 2 ^ 32.

End Avx2.

Import Avx2.

(** ** The function's stack frame and its loop *)

(** The two locals of [PerformHeavyLoad], and a counter that is not in the
    source: [adds] is the instrumentation of an instrumented build, bumped
    alongside every [_mm256_add_epi32] the loop body performs. *)
Record frame : Type := Frame { i : Z; vec : m256i; adds : N }.

(** The frame at the first evaluation of the loop condition:
    [__m256i vec = _mm256_set1_epi32(1);] and [int i = 0]. *)
Definition entry : frame :=
  {| i := 0; vec := _mm256_set1_epi32 1; adds := 0%N |}.

(** How a run of the loop on a budget of iterations ends. *)
Inductive run : Type :=
| Exited (f : frame)    (* the condition [i < 1000000000] was false *)
| Running (f : frame)   (* budget used up at the loop head, loop not left *)
| Undefined.            (* [i++] overflowed *)

(** [for (...; i < 1000000000; i++) { vec = _mm256_add_epi32(vec,
    _mm256_set1_epi32(1)); }], from the loop head, for at most [fuel]
    iterations. *)
Fixpoint loop (fuel : nat) (f : frame) : run :=
  if i f <? 1000000000 then
    match fuel with
    | O => Running f
    | S fuel' =>
        let vec' := _mm256_add_epi32 (vec f) (_mm256_set1_epi32 1) in
        match CInt.incr (i f) with
        | Some i' => loop fuel' {| i := i'; vec := vec'; adds := N.succ (adds f) |}
        | None => Undefined
        end
    end
  else Exited f.

(** The frame a run stopped in, if it did not go undefined. *)
Definition frame_of (r : run) : option frame :=
  match r with
  | Exited f | Running f => Some f
  | Undefined => None
  end.

(** The frame once [k] iterations have been completed (or once the loop has
    been left, when that happens before). *)
Definition after (k : nat) : option frame := frame_of (loop k entry).

(** ** The exported function, as its caller sees it *)

Section Caller.

(** Whatever lies outside the frame: memory, the file system, globals. *)
Variable World : Type.

Inductive outcome : Type :=
| Returned (r : unit) (w : World)   (* [void] return, caller's state *)
| Fault                             (* undefined behaviour was reached *)
| Unfinished.                       (* the budget was too small *)

(** What the caller is handed at the closing brace: the frame is dropped. *)
Definition deliver (r : run) (w : World) : outcome :=
  match r with
  | Exited _ => Returned tt w
  | Running _ => Unfinished
  | Undefined => Fault
  end.

Definition PerformHeavyLoad (fuel : nat) (w : World) : outcome :=
  deliver (loop fuel entry) w.

End Caller.

Arguments Returned {World} r w.
Arguments Fault {World}.
Arguments Unfinished {World}.
Arguments deliver {World} r w.
Arguments PerformHeavyLoad {World} fuel w.

(** ** The call on a machine that has a memory

    The same function, with the state outside its frame carried through
    every statement instead of being set aside.  The function names no
    global, takes no pointer and calls nothing but the two intrinsics, which
    work on register values: its statements are the assignment to the local
    [vec] and the increment of the local [i], so each step rebuilds the
    frame and passes the rest of the machine on. *)

Module Machine.

(** What a caller can see of the machine: addressable memory (a byte per
    address), the objects of static storage, and the files (contents by
    file id). *)
Record world : Type :=
  World { memory : Z -> Z; globals : Z -> Z; file_system : Z -> list Z }.

(** The machine while the function runs: its frame, and the rest. *)
Record state : Type := State { locals : frame; ambient : world }.

Inductive mrun : Type :=
| MExited (s : state)    (* the condition [i < 1000000000] was false *)
| MRunning (s : state)   (* budget used up at the loop head *)
| MUndefined.            (* [i++] overflowed *)

(** The loop of [PerformHeavyLoad] on machine states, from the loop head,
    for at most [fuel] iterations. *)
Fixpoint loop (fuel : nat) (s : state) : mrun :=
  if i (locals s) <? 1000000000 then
    match fuel with
    | O => MRunning s
    | S fuel' =>
        let vec' := _mm256_add_epi32 (vec (locals s)) (_mm256_set1_epi32 1) in
        match CInt.incr (i (locals s)) with
        | Some i' =>
            loop fuel' {| locals := {| i := i'; vec := vec';
                                       adds := N.succ (adds (locals s)) |};
                          ambient := ambient s |}
        | None => MUndefined
        end
    end
  else MExited s.

(** The call: the frame is set up on entry and dropped at the closing brace;
    the caller gets the machine back. *)
Definition PerformHeavyLoad (fuel : nat) (w : world) : outcome world :=
  match loop fuel {| locals := entry; ambient := w |} with
  | MExited s => Returned tt (ambient s)
  | MRunning _ => Unfinished
  | MUndefined => Fault
  end.

(** A run of the frame-level loop, put back on a machine. *)
Definition on_machine (r : run) (w : world) : mrun :=
  match r with
  | Exited f => MExited {| locals := f; ambient := w |}
  | Running f => MRunning {| locals := f; ambient := w |}
  | Undefined => MUndefined
  end.

End Machine.

(** ** The frame after [k] iterations, in closed form

    Not part of the source: the loop invariant, as a frame.  The counter is
    [k], every lane of the accumulator is [k + 1] (reduced to 32 bits), and
    [k] adds have been counted. *)
Definition frame_after (k : Z) : frame :=
  {| i := k; vec := _mm256_set1_epi32 (k + 1); adds := Z.to_N k |}.

(** ** Small runs, evaluated *)

Example entry_lanes : lanes (vec entry) = [1; 1; 1; 1; 1; 1; 1; 1].
Proof. vm_compute. reflexivity. Qed.

Example three_iterations :
  loop 3 entry = Running {| i := 3; vec := _mm256_set1_epi32 4; adds := 3%N |}.
Proof. vm_compute. reflexivity. Qed.

Example exit_at_the_bound :
  loop 2 {| i := 999999999; vec := _mm256_set1_epi32 7; adds := 5%N |}
  = Exited {| i := 1000000000; vec := _mm256_set1_epi32 8; adds := 6%N |}.
Proof. vm_compute. reflexivity. Qed.

Example add_wraps :
  lanes (_mm256_add_epi32 (_mm256_set1_epi32 4294967295) (_mm256_set1_epi32 1))
  = [0; 0; 0; 0; 0; 0; 0; 0].
Proof. vm_compute. reflexivity. Qed.

Example set1_negative : lanes (_mm256_set1_epi32 (-1)) = repeat 4294967295 8.
Proof. vm_compute. reflexivity. Qed.

Example add_lanes_apart :
  lanes (_mm256_add_epi32 (pack [4294967295; 5; 0; 7; 1; 2; 3; 4294967294])
                          (_mm256_set1_epi32 1))
  = [0; 6; 1; 8; 2; 3; 4; 4294967295].
Proof. vm_compute. reflexivity. Qed.

(** ** The counter's increment *)

Lemma incr_Some (i : Z) : i < CInt.INT_MAX -> CInt.incr i = Some (i + 1).
Proof.
  intros H. unfold CInt.incr. destruct (Z.ltb_spec i CInt.INT_MAX); [reflexivity | lia].
Qed.

Lemma incr_None (i : Z) : CInt.INT_MAX <= i -> CInt.incr i = None.
Proof.
  intros H. unfold CInt.incr. destruct (Z.ltb_spec i CInt.INT_MAX); [lia | reflexivity].
Qed.

(** ** Lanes of the register *)

(** *** Lanes as quotients and remainders *)

Lemma lane_div_mod (v : m256i) (j : nat) :
  lane v j = (v / 2 ^ (32 * Z.of_nat j)) mod 2 ^ 32.
Proof.
  unfold lane. rewrite Z.land_ones by lia. rewrite Z.shiftr_div_pow2 by lia.
  reflexivity.
Qed.

Lemma lane_range (v : m256i) (j : nat) : 0 <= lane v j < 2 ^ 32.
Proof. rewrite lane_div_mod. apply Z.mod_pos_bound. lia. Qed.

Lemma wrap32_range (x : Z) : 0 <= wrap32 x < 2 ^ 32.
Proof. apply Z.mod_pos_bound. lia. Qed.

Lemma wrap32_small (x : Z) : 0 <= x < 2 ^ 32 -> wrap32 x = x.
Proof. apply Z.mod_small. Qed.

(** *** [pack] and [lane] are inverse on 32-bit fields *)

Lemma pack_nonneg (ls : list Z) : Forall fits32 ls -> 0 <= pack ls.
Proof.
  induction 1 as [| x rest Hx _ IH]; [simpl; lia |].
  cbn [pack]. apply Z.lor_nonneg.
  split; [apply Hx | apply Z.shiftl_nonneg; exact IH].
Qed.

(** A 32-bit field and a pattern shifted past it share no bit, so the
    [lor] that joins them is a sum. *)
Lemma pack_cons_add (x p : Z) :
  fits32 x -> Z.lor x (Z.shiftl p 32) = x + 2 ^ 32 * p.
Proof.
  intros Hx.
  assert (Hdisj : Z.land x (Z.shiftl p 32) = 0).
  { apply Z.bits_inj'. intros n Hn.
    rewrite Z.land_spec, Z.bits_0.
    destruct (Z.lt_ge_cases n 32) as [Hlt | Hge].
    - rewrite (Z.shiftl_spec_low p 32 n Hlt). apply andb_false_r.
    - assert (Hbit : Z.testbit x n = false).
      { destruct (Z.eq_dec x 0) as [-> | Hnz]; [apply Z.bits_0 |].
        apply Z.bits_above_log2; [apply Hx |].
        assert (Z.log2 x < 32) by (apply Z.log2_lt_pow2; unfold fits32 in Hx; lia).
        lia. }
      rewrite Hbit. reflexivity. }
  rewrite <- Z.lxor_lor by exact Hdisj.
  rewrite <- Z.add_nocarry_lxor by exact Hdisj.
  rewrite Z.shiftl_mul_pow2 by lia. lia.
Qed.

Lemma lane_pack (ls : list Z) (j : nat) :
  Forall fits32 ls -> lane (pack ls) j = nth j ls 0.
Proof.
  intros Hls. revert j.
  induction Hls as [| x rest Hx Hrest IH]; intros j.
  - rewrite lane_div_mod. cbn [pack]. rewrite Z.div_0_l by lia.
    destruct j; reflexivity.
  - cbn [pack]. rewrite pack_cons_add by exact Hx.
    destruct j as [| j].
    + rewrite lane_div_mod. simpl Z.of_nat. rewrite Z.mul_0_r, Z.pow_0_r, Z.div_1_r.
      rewrite Z.mul_comm, Z.mod_add by lia. apply Z.mod_small, Hx.
    + simpl nth. rewrite <- IH. rewrite !lane_div_mod.
      replace (32 * Z.of_nat (S j)) with (32 + 32 * Z.of_nat j) by lia.
      rewrite Z.pow_add_r by lia.
      rewrite <- Z.div_div by lia.
      rewrite (Z.mul_comm (2 ^ 32) (pack rest)), Z.div_add by lia.
      rewrite (Z.div_small x) by exact Hx. reflexivity.
Qed.

Lemma pack_range (ls : list Z) :
  Forall fits32 ls -> 0 <= pack ls < 2 ^ (32 * Z.of_nat (length ls)).
Proof.
  induction 1 as [| x rest Hx Hrest IH].
  - simpl. lia.
  - cbn [pack]. rewrite pack_cons_add by exact Hx.
    replace (32 * Z.of_nat (length (x :: rest)))
      with (32 + 32 * Z.of_nat (length rest)) by (simpl length; lia).
    rewrite Z.pow_add_r by lia. unfold fits32 in Hx. nia.
Qed.

(** *** What [for_each_lane] leaves in each lane *)

Lemma for_each_lane_fits (e : nat -> Z) (js : list nat) :
  Forall fits32 (map (fun j => wrap32 (e j)) js).
Proof.
  induction js as [| j js IH]; simpl; constructor; [apply wrap32_range | exact IH].
Qed.

Lemma lane_for_each_lane (e : nat -> Z) (j : nat) :
  (j < LANES)%nat -> lane (for_each_lane e) j = wrap32 (e j).
Proof.
  intros Hj. unfold for_each_lane.
  rewrite lane_pack by apply for_each_lane_fits.
  rewrite (nth_indep _ 0 (wrap32 (e O)))
    by (rewrite length_map, length_seq; exact Hj).
  rewrite (map_nth (fun j => wrap32 (e j)) (seq 0 LANES) O j).
  rewrite seq_nth by exact Hj. reflexivity.
Qed.

Lemma for_each_lane_range (e : nat -> Z) : 0 <= for_each_lane e < 2 ^ 256.
Proof.
  unfold for_each_lane.
  pose proof (pack_range _ (for_each_lane_fits e (seq 0 LANES))) as H.
  rewrite length_map, length_seq in H. exact H.
Qed.

(** Two lane-wise definitions that agree on every lane build the same
    register. *)
Lemma for_each_lane_ext (e1 e2 : nat -> Z) :
  (forall j, (j < LANES)%nat -> wrap32 (e1 j) = wrap32 (e2 j)) ->
  for_each_lane e1 = for_each_lane e2.
Proof.
  intros H. unfold for_each_lane. f_equal.
  apply map_ext_in. intros j Hj. apply H. apply in_seq in Hj. lia.
Qed.

Lemma lane_set1 (a : Z) (j : nat) :
  (j < LANES)%nat -> lane (_mm256_set1_epi32 a) j = wrap32 a.
Proof. apply lane_for_each_lane. Qed.

Lemma lane_add (a b : m256i) (j : nat) :
  (j < LANES)%nat ->
  lane (_mm256_add_epi32 a b) j = wrap32 (lane a j + lane b j).
Proof. apply (lane_for_each_lane (fun j => lane a j + lane b j)). Qed.

(** Adding two broadcasts is the broadcast of the sum. *)
Lemma add_set1_set1 (a b : Z) :
  _mm256_add_epi32 (_mm256_set1_epi32 a) (_mm256_set1_epi32 b)
  = _mm256_set1_epi32 (a + b).
Proof.
  apply for_each_lane_ext. intros j Hj.
  rewrite !lane_set1 by exact Hj. unfold wrap32.
  rewrite <- Z.add_mod by lia. reflexivity.
Qed.

(** ** The loop, one iteration at a time *)

Lemma loop_unfold (fuel : nat) (f : frame) :
  loop fuel f =
  if i f <? 1000000000 then
    match fuel with
    | O => Running f
    | S fuel' =>
        match CInt.incr (i f) with
        | Some i' =>
            loop fuel' {| i := i';
                          vec := _mm256_add_epi32 (vec f) (_mm256_set1_epi32 1);
                          adds := N.succ (adds f) |}
        | None => Undefined
        end
    end
  else Exited f.
Proof. destruct fuel; reflexivity. Qed.

Lemma loop_exit (fuel : nat) (f : frame) :
  1000000000 <= i f -> loop fuel f = Exited f.
Proof.
  intros H. rewrite loop_unfold.
  destruct (Z.ltb_spec (i f) 1000000000); [lia | reflexivity].
Qed.

Lemma loop_pause (f : frame) : i f < 1000000000 -> loop 0 f = Running f.
Proof.
  intros H. rewrite loop_unfold.
  destruct (Z.ltb_spec (i f) 1000000000); [reflexivity | lia].
Qed.

Lemma loop_iterate (fuel : nat) (f : frame) :
  i f < 1000000000 ->
  loop (S fuel) f =
  loop fuel {| i := i f + 1;
               vec := _mm256_add_epi32 (vec f) (_mm256_set1_epi32 1);
               adds := N.succ (adds f) |}.
Proof.
  intros H. rewrite loop_unfold.
  destruct (Z.ltb_spec (i f) 1000000000); [| lia].
  rewrite incr_Some by (unfold CInt.INT_MAX; lia). reflexivity.
Qed.

(** Case analysis on the loop condition at frame [f]: [H] is [i f <
    1000000000] in the first goal and [1000000000 <= i f] in the second. *)
Ltac at_loop_head f H :=
  destruct (Z.lt_ge_cases (i f) 1000000000) as [H | H].

(** The counter never overflows: the guard [i < 1000000000] leaves room for
    the increment. *)
Lemma loop_defined (fuel : nat) (f : frame) : loop fuel f <> Undefined.
Proof.
  revert f. induction fuel as [| fuel IH]; intros f.
  - at_loop_head f H.
    + rewrite loop_pause by exact H. discriminate.
    + rewrite loop_exit by exact H. discriminate.
  - at_loop_head f H.
    + rewrite loop_iterate by exact H. apply IH.
    + rewrite loop_exit by exact H. discriminate.
Qed.

(** More budget does not change a run that left the loop. *)
Lemma loop_fuel_mono (fuel : nat) (f g : frame) :
  loop fuel f = Exited g ->
  forall fuel', (fuel <= fuel')%nat -> loop fuel' f = Exited g.
Proof.
  revert f. induction fuel as [| fuel IH]; intros f Hrun fuel' Hle.
  - at_loop_head f H.
    + rewrite loop_pause in Hrun by exact H. discriminate.
    + rewrite loop_exit in Hrun by exact H. rewrite loop_exit by exact H. exact Hrun.
  - at_loop_head f H.
    + destruct fuel' as [| fuel']; [lia |].
      rewrite loop_iterate in Hrun by exact H. rewrite loop_iterate by exact H.
      apply (IH _ Hrun). lia.
    + rewrite loop_exit in Hrun by exact H. rewrite loop_exit by exact H. exact Hrun.
Qed.

(** What the caller is handed depends on the counter alone, never on the
    accumulator (nor on the instrumentation). *)
Lemma deliver_ignores_vec {World : Type} (fuel : nat) (f g : frame) (w : World) :
  i f = i g -> deliver (loop fuel f) w = deliver (loop fuel g) w.
Proof.
  revert f g. induction fuel as [| fuel IH]; intros f g Hi.
  - at_loop_head f H.
    + rewrite !loop_pause by lia. reflexivity.
    + rewrite !loop_exit by lia. reflexivity.
  - at_loop_head f H.
    + rewrite !loop_iterate by lia. apply IH. simpl. lia.
    + rewrite !loop_exit by lia. reflexivity.
Qed.

(** ** The closed form is what the loop computes *)

Lemma frame_after_0 : frame_after 0 = entry.
Proof. reflexivity. Qed.

Lemma loop_frame_after (n : nat) (k : Z) :
  0 <= k -> k + Z.of_nat n <= 1000000000 ->
  loop n (frame_after k) =
  if k + Z.of_nat n <? 1000000000
  then Running (frame_after (k + Z.of_nat n))
  else Exited (frame_after (k + Z.of_nat n)).
Proof.
  revert k. induction n as [| n IH]; intros k Hk Hn.
  - replace (k + Z.of_nat 0) with k by lia.
    destruct (Z.ltb_spec k 1000000000) as [H | H].
    + apply loop_pause. exact H.
    + apply loop_exit. exact H.
  - rewrite loop_iterate by (cbn [i frame_after]; lia).
    cbn [i vec adds frame_after].
    rewrite add_set1_set1.
    replace (N.succ (Z.to_N k)) with (Z.to_N (k + 1)) by lia.
    change (loop n (frame_after (k + 1)) =
            if k + Z.of_nat (S n) <? 1000000000
            then Running (frame_after (k + Z.of_nat (S n)))
            else Exited (frame_after (k + Z.of_nat (S n)))).
    replace (k + Z.of_nat (S n)) with (k + 1 + Z.of_nat n) by lia.
    apply IH; lia.
Qed.

Lemma loop_snapshot (k : Z) :
  0 <= k < 1000000000 -> loop (Z.to_nat k) entry = Running (frame_after k).
Proof.
  intros Hk. rewrite <- frame_after_0.
  rewrite loop_frame_after by lia.
  replace (0 + Z.of_nat (Z.to_nat k)) with k by lia.
  destruct (Z.ltb_spec k 1000000000); [reflexivity | lia].
Qed.

Lemma loop_completes (fuel : nat) :
  (Z.to_nat 1000000000 <= fuel)%nat ->
  loop fuel entry = Exited (frame_after 1000000000).
Proof.
  apply loop_fuel_mono. rewrite <- frame_after_0.
  rewrite loop_frame_after by lia.
  replace (0 + Z.of_nat (Z.to_nat 1000000000)) with 1000000000 by lia.
  reflexivity.
Qed.

Lemma after_closed_form (k : Z) :
  0 <= k <= 1000000000 -> after (Z.to_nat k) = Some (frame_after k).
Proof.
  intros Hk. unfold after.
  destruct (Z.eq_dec k 1000000000) as [-> | Hne].
  - rewrite loop_completes by apply Nat.le_refl. reflexivity.
  - rewrite loop_snapshot by lia. reflexivity.
Qed.

Lemma lane_frame_after (k : Z) (j : nat) :
  0 <= k <= 1000000000 -> (j < LANES)%nat ->
  lane (vec (frame_after k)) j = k + 1.
Proof.
  intros Hk Hj. cbn [vec frame_after].
  rewrite lane_set1 by exact Hj. apply wrap32_small. lia.
Qed.

(** The add of the loop body, lane by lane. *)
Lemma lane_add_one (v : m256i) (j : nat) :
  (j < LANES)%nat ->
  lane (_mm256_add_epi32 v (_mm256_set1_epi32 1)) j = (lane v j + 1) mod 2 ^ 32.
Proof.
  intros Hj. rewrite lane_add, lane_set1 by exact Hj. reflexivity.
Qed.

Lemma lanes_set1 (a : Z) : lanes (_mm256_set1_epi32 a) = repeat (wrap32 a) LANES.
Proof.
  unfold lanes. cbn [LANES seq map repeat].
  rewrite !lane_set1 by (unfold LANES; lia). reflexivity.
Qed.

Lemma PerformHeavyLoad_returns {World : Type} (fuel : nat) (w : World) :
  (Z.to_nat 1000000000 <= fuel)%nat -> PerformHeavyLoad fuel w = Returned tt w.
Proof.
  intros Hfuel. unfold PerformHeavyLoad.
  rewrite loop_completes by exact Hfuel. reflexivity.
Qed.

(** ** The accumulator as a number of adds *)

(** [n] adds of the all-ones vector to a broadcast. *)
Lemma iter_add_ones (n : nat) (a : Z) :
  Nat.iter n (fun v => _mm256_add_epi32 v (_mm256_set1_epi32 1))
           (_mm256_set1_epi32 a)
  = _mm256_set1_epi32 (a + Z.of_nat n).
Proof.
  induction n as [| n IH].
  - cbn [Nat.iter nat_rect]. f_equal. lia.
  - rewrite Nat.iter_succ, IH, add_set1_set1. f_equal. lia.
Qed.

(** Broadcasts are told apart by the low 32 bits of what they broadcast. *)
Lemma set1_inj (a b : Z) :
  _mm256_set1_epi32 a = _mm256_set1_epi32 b -> wrap32 a = wrap32 b.
Proof.
  intros H.
  rewrite <- (lane_set1 a 0), <- (lane_set1 b 0) by (unfold LANES; lia).
  rewrite H. reflexivity.
Qed.

(** The accumulator after [k] iterations is [k] adds away from the one the
    function starts with, and no other number of adds below [2^32] gives
    it. *)
Lemma frame_after_adds (k : Z) :
  0 <= k <= 1000000000 ->
  vec (frame_after k)
  = Nat.iter (N.to_nat (adds (frame_after k)))
             (fun v => _mm256_add_epi32 v (_mm256_set1_epi32 1)) (vec entry) /\
  forall m : nat,
    Z.of_nat m < 2 ^ 32 ->
    Nat.iter m (fun v => _mm256_add_epi32 v (_mm256_set1_epi32 1)) (vec entry)
    = vec (frame_after k) ->
    N.of_nat m = adds (frame_after k).
Proof.
  intros Hk. cbn [vec adds frame_after entry]. split.
  - rewrite iter_add_ones. f_equal. lia.
  - intros m Hm Heq. rewrite iter_add_ones in Heq.
    apply set1_inj in Heq. unfold wrap32 in Heq.
    rewrite (Z.mod_small (k + 1)) in Heq by lia.
    destruct (Z.eq_dec (1 + Z.of_nat m) (2 ^ 32)) as [Htop | Hlow].
    + rewrite Htop, Z.mod_same in Heq by lia. lia.
    + rewrite Z.mod_small in Heq by lia. lia.
Qed.

(** ** The machine-level loop is the frame-level loop *)

(** The loop on machine states does to the frame what [loop] does, and
    nothing to the rest of the machine. *)
Lemma machine_loop_on_machine (fuel : nat) (s : Machine.state) :
  Machine.loop fuel s
  = Machine.on_machine (loop fuel (Machine.locals s)) (Machine.ambient s).
Proof.
  revert s. induction fuel as [| fuel IH]; intros [f w];
    cbn [Machine.locals Machine.ambient].
  - at_loop_head f H.
    + rewrite loop_pause by exact H. cbn [Machine.loop Machine.locals].
      destruct (Z.ltb_spec (i f) 1000000000); [reflexivity | lia].
    + rewrite loop_exit by exact H. cbn [Machine.loop Machine.locals].
      destruct (Z.ltb_spec (i f) 1000000000); [lia | reflexivity].
  - at_loop_head f H.
    + rewrite loop_iterate by exact H.
      cbn [Machine.loop Machine.locals Machine.ambient].
      destruct (Z.ltb_spec (i f) 1000000000); [| lia].
      rewrite incr_Some by (unfold CInt.INT_MAX; lia).
      rewrite IH. reflexivity.
    + rewrite loop_exit by exact H. cbn [Machine.loop Machine.locals].
      destruct (Z.ltb_spec (i f) 1000000000); [lia | reflexivity].
Qed.

(** ** Properties of [PerformHeavyLoad] *)

(** C1: once [PerformHeavyLoad] has run to completion, each of the 8 lanes of
    the accumulator holds [(1 + 1000000000) mod 2^32], which is
    [1000000001]. *)
Theorem final_accumulator (fuel : nat) :
  (Z.to_nat 1000000000 <= fuel)%nat ->
  exists f,
    loop fuel entry = Exited f /\
    lanes (vec f) = repeat ((1 + 1000000000) mod 2 ^ 32) 8 /\
    (1 + 1000000000) mod 2 ^ 32 = 1000000001.
Proof.
  intros Hfuel. exists (frame_after 1000000000).
  split; [apply loop_completes; exact Hfuel |].
  split; [| reflexivity].
  cbn [vec frame_after]. apply lanes_set1.
Qed.

Lemma final_accumulator_witness :
  (Z.to_nat 1000000000 <= Z.to_nat 1000000000)%nat /\
  exists f,
    loop (Z.to_nat 1000000000) entry = Exited f /\
    lanes (vec f) = repeat ((1 + 1000000000) mod 2 ^ 32) 8 /\
    (1 + 1000000000) mod 2 ^ 32 = 1000000001.
Proof.
  split; [apply Nat.le_refl |].
  apply (final_accumulator (Z.to_nat 1000000000)). apply Nat.le_refl.
Defined.

(** C2: [PerformHeavyLoad] performs exactly 1000000000 vector adds on the
    accumulator.  On a budget of [fuel] iterations the loop has performed
    [min fuel 1000000000] adds and is left exactly when the budget reaches
    1000000000; the accumulator it holds is the one the function starts
    with after that many [_mm256_add_epi32] with the all-ones vector, and
    after no other number of them below [2^32]: no more and no fewer. *)
Theorem exactly_1000000000_adds (fuel : nat) :
  exists f,
    adds f = N.min (N.of_nat fuel) 1000000000 /\
    loop fuel entry =
    (if Z.of_nat fuel <? 1000000000 then Running f else Exited f) /\
    vec f = Nat.iter (N.to_nat (adds f))
                     (fun v => _mm256_add_epi32 v (_mm256_set1_epi32 1))
                     (vec entry) /\
    forall m : nat,
      Z.of_nat m < 2 ^ 32 ->
      Nat.iter m (fun v => _mm256_add_epi32 v (_mm256_set1_epi32 1)) (vec entry)
      = vec f ->
      N.of_nat m = adds f.
Proof.
  destruct (Z.ltb_spec (Z.of_nat fuel) 1000000000) as [H | H].
  - exists (frame_after (Z.of_nat fuel)).
    split; [cbn [adds frame_after]; lia |].
    split; [rewrite <- (Nat2Z.id fuel) at 1; apply loop_snapshot; lia |].
    apply frame_after_adds. lia.
  - exists (frame_after 1000000000).
    split; [cbn [adds frame_after]; lia |].
    split; [apply loop_completes; lia |].
    apply frame_after_adds. lia.
Qed.

(** C3: the add of an iteration is lane-wise and modular.  One iteration of
    the loop, from any accumulator, takes every lane value [v] to
    [(v + 1) mod 2^32]: the successor below the top value, and 0 (not the
    top value again, and no error) at the top value [2^32 - 1]. *)
Theorem iteration_adds_one_mod_2_32 (f : frame) (j : nat) :
  i f < 1000000000 -> (j < LANES)%nat ->
  exists g,
    frame_of (loop 1 f) = Some g /\
    vec g = _mm256_add_epi32 (vec f) (_mm256_set1_epi32 1) /\
    lane (vec g) j = (lane (vec f) j + 1) mod 2 ^ 32 /\
    (lane (vec f) j < 4294967295 -> lane (vec g) j = lane (vec f) j + 1) /\
    (lane (vec f) j = 4294967295 -> lane (vec g) j = 0).
Proof.
  intros Hi Hj.
  exists {| i := i f + 1;
            vec := _mm256_add_epi32 (vec f) (_mm256_set1_epi32 1);
            adds := N.succ (adds f) |}.
  split.
  - rewrite loop_iterate by exact Hi.
    match goal with |- frame_of (loop 0 ?g) = _ => at_loop_head g H end.
    + rewrite loop_pause by exact H. reflexivity.
    + rewrite loop_exit by exact H. reflexivity.
  - cbn [vec]. split; [reflexivity |].
    pose proof (lane_range (vec f) j) as Hr.
    rewrite lane_add_one by exact Hj.
    repeat split.
    + intros Hlt. apply Z.mod_small. lia.
    + intros Htop. rewrite Htop. reflexivity.
Qed.

Lemma iteration_adds_one_mod_2_32_witness :
  0 < 1000000000 /\ (0 < LANES)%nat /\
  exists g,
    frame_of (loop 1 {| i := 0;
                        vec := pack [4294967295; 5; 0; 7; 1; 2; 3; 4294967294];
                        adds := 0 |}) = Some g /\
    lane (vec g) 0 = 0.
Proof.
  split; [lia |]. split; [unfold LANES; lia |].
  destruct (iteration_adds_one_mod_2_32
              {| i := 0;
                 vec := pack [4294967295; 5; 0; 7; 1; 2; 3; 4294967294];
                 adds := 0 |} 0)
    as [g [Hg [_ [_ [_ Htop]]]]].
  - cbn [i]. lia.
  - unfold LANES; lia.
  - exists g. split; [exact Hg |]. apply Htop. vm_compute. reflexivity.
Defined.

(** C4: every call of [PerformHeavyLoad] terminates.  There is a number of
    iterations after which the loop has been left and the function has
    returned, whatever the caller's state. *)
Theorem PerformHeavyLoad_terminates :
  exists n : nat,
  forall (World : Type) (w : World) (fuel : nat),
    (n <= fuel)%nat ->
    (exists f, loop fuel entry = Exited f) /\
    (exists r w', PerformHeavyLoad fuel w = Returned r w').
Proof.
  exists (Z.to_nat 1000000000). intros World w fuel Hfuel. split.
  - exists (frame_after 1000000000). apply loop_completes. exact Hfuel.
  - exists tt, w. apply PerformHeavyLoad_returns. exact Hfuel.
Qed.

(** C5: before the loop begins the accumulator is an 8-lane vector of 32-bit
    integers with every lane equal to 1. *)
Theorem accumulator_before_loop :
  after 0 = Some entry /\
  lanes (vec entry) = [1; 1; 1; 1; 1; 1; 1; 1] /\
  0 <= vec entry < 2 ^ 256.
Proof.
  split; [reflexivity |]. split.
  - cbn [vec entry]. rewrite lanes_set1. reflexivity.
  - cbn [vec entry]. apply for_each_lane_range.
Qed.

(** C6: [PerformHeavyLoad] has no parameter besides the caller's state and
    hands back the unit value with that state; the accumulator is never
    delivered: starting the loop from any other accumulator (and so
    computing any other value) leaves what the caller receives the same. *)
Theorem accumulator_never_delivered {World : Type} (fuel : nat) (w : World) :
  (forall (v : m256i) (c : N),
      deliver (loop fuel {| i := 0; vec := v; adds := c |}) w
      = PerformHeavyLoad fuel w) /\
  (PerformHeavyLoad fuel w = Unfinished \/ PerformHeavyLoad fuel w = Returned tt w).
Proof.
  split.
  - intros v c. unfold PerformHeavyLoad. apply deliver_ignores_vec. reflexivity.
  - destruct (Nat.le_gt_cases (Z.to_nat 1000000000) fuel) as [H | H].
    + right. apply PerformHeavyLoad_returns. exact H.
    + left. unfold PerformHeavyLoad.
      rewrite <- (Nat2Z.id fuel). rewrite loop_snapshot by lia. reflexivity.
Qed.

(** C7: [PerformHeavyLoad] never fails.  No budget leads the loop (from the
    entry frame or any other) to the undefined increment, so the function
    never reports a fault: it returns normally, and is unfinished only
    while the budget is short of the 1000000000 iterations. *)
Theorem PerformHeavyLoad_never_fails {World : Type} (fuel : nat) (w : World) :
  (forall f, loop fuel f <> Undefined) /\
  PerformHeavyLoad fuel w <> Fault /\
  PerformHeavyLoad fuel w =
  if Z.of_nat fuel <? 1000000000 then Unfinished else Returned tt w.
Proof.
  split; [intros f; apply loop_defined |].
  assert (Hrun : PerformHeavyLoad fuel w =
                 if Z.of_nat fuel <? 1000000000 then Unfinished else Returned tt w).
  { destruct (Z.ltb_spec (Z.of_nat fuel) 1000000000) as [H | H].
    - unfold PerformHeavyLoad. rewrite <- (Nat2Z.id fuel).
      rewrite loop_snapshot by lia. reflexivity.
    - apply PerformHeavyLoad_returns. lia. }
  split; [| exact Hrun].
  rewrite Hrun. destruct (Z.of_nat fuel <? 1000000000); discriminate.
Qed.

(** C8: [PerformHeavyLoad] leaves everything outside its frame as it found
    it.  On the machine with a memory, for any memory, globals and files
    the caller has, the loop is left in a state whose memory, globals and
    files are the caller's, and the call hands the caller that same
    machine back. *)
Theorem PerformHeavyLoad_writes_nothing (fuel : nat) (w : Machine.world) :
  (Z.to_nat 1000000000 <= fuel)%nat ->
  exists s,
    Machine.loop fuel {| Machine.locals := entry; Machine.ambient := w |}
    = Machine.MExited s /\
    Machine.memory (Machine.ambient s) = Machine.memory w /\
    Machine.globals (Machine.ambient s) = Machine.globals w /\
    Machine.file_system (Machine.ambient s) = Machine.file_system w /\
    Machine.PerformHeavyLoad fuel w = Returned tt w.
Proof.
  intros Hfuel.
  exists {| Machine.locals := frame_after 1000000000; Machine.ambient := w |}.
  assert (Hrun : Machine.loop fuel {| Machine.locals := entry;
                                      Machine.ambient := w |}
                 = Machine.MExited {| Machine.locals := frame_after 1000000000;
                                      Machine.ambient := w |}).
  { rewrite machine_loop_on_machine. cbn [Machine.locals Machine.ambient].
    rewrite loop_completes by exact Hfuel. reflexivity. }
  split; [exact Hrun |].
  cbn [Machine.ambient]. repeat split.
  unfold Machine.PerformHeavyLoad. rewrite Hrun. reflexivity.
Qed.

Lemma PerformHeavyLoad_writes_nothing_witness :
  (Z.to_nat 1000000000 <= Z.to_nat 1000000000)%nat /\
  Machine.PerformHeavyLoad (Z.to_nat 1000000000)
    {| Machine.memory := fun a => a mod 256;
       Machine.globals := fun g => 7 * g;
       Machine.file_system := fun _ => [3; 1; 4] |}
  = Returned tt {| Machine.memory := fun a => a mod 256;
                   Machine.globals := fun g => 7 * g;
                   Machine.file_system := fun _ => [3; 1; 4] |}.
Proof.
  split; [apply Nat.le_refl |].
  destruct (PerformHeavyLoad_writes_nothing (Z.to_nat 1000000000)
              {| Machine.memory := fun a => a mod 256;
                 Machine.globals := fun g => 7 * g;
                 Machine.file_system := fun _ => [3; 1; 4] |})
    as [s [_ [_ [_ [_ Hcall]]]]].
  - apply Nat.le_refl.
  - exact Hcall.
Defined.

(** C9: at every point of the loop the 8 lanes agree: after [k] completed
    iterations, [0 <= k <= 1000000000], every lane is [(k + 1) mod 2^32]. *)
Theorem lanes_agree_invariant (k : Z) :
  0 <= k <= 1000000000 ->
  exists f,
    after (Z.to_nat k) = Some f /\
    adds f = Z.to_N k /\
    lanes (vec f) = repeat ((k + 1) mod 2 ^ 32) 8.
Proof.
  intros Hk. exists (frame_after k).
  split; [apply after_closed_form; exact Hk |].
  split; [reflexivity |].
  cbn [vec frame_after]. apply lanes_set1.
Qed.

Lemma lanes_agree_invariant_witness :
  0 <= 3 <= 1000000000 /\
  exists f,
    after (Z.to_nat 3) = Some f /\
    adds f = Z.to_N 3 /\
    lanes (vec f) = repeat ((3 + 1) mod 2 ^ 32) 8.
Proof.
  split; [lia |]. apply (lanes_agree_invariant 3). lia.
Defined.

(** C10: no overflow is exercised.  After [k] completed iterations,
    [0 <= k <= 1000000000], the counter is [k], below [2^31], and its
    increment is defined; every lane is [k + 1], at most [1000000001] (the
    value at [k = 1000000000]) and below [2^32], and the sum the next add
    would store in the lane needs no reduction. *)
Theorem no_overflow_exercised (k : Z) :
  0 <= k <= 1000000000 ->
  exists f,
    after (Z.to_nat k) = Some f /\
    i f = k /\ i f < 2 ^ 31 /\ CInt.incr (i f) = Some (k + 1) /\
    forall j, (j < LANES)%nat ->
      lane (vec f) j = k + 1 /\
      lane (vec f) j <= 1000000001 /\ 1000000001 < 2 ^ 32 /\
      (k = 1000000000 -> lane (vec f) j = 1000000001) /\
      wrap32 (lane (vec f) j + lane (_mm256_set1_epi32 1) j) = lane (vec f) j + 1.
Proof.
  intros Hk. exists (frame_after k).
  split; [apply after_closed_form; exact Hk |].
  split; [reflexivity |].
  split; [cbn [i frame_after]; lia |].
  split; [cbn [i frame_after]; apply incr_Some; unfold CInt.INT_MAX; lia |].
  intros j Hj. rewrite lane_frame_after by assumption.
  rewrite lane_set1 by exact Hj.
  change (wrap32 1) with 1.
  repeat split; try lia.
  apply wrap32_small. lia.
Qed.

Lemma no_overflow_exercised_witness :
  0 <= 1000000000 <= 1000000000 /\
  exists f,
    after (Z.to_nat 1000000000) = Some f /\
    i f = 1000000000 /\ i f < 2 ^ 31 /\
    CInt.incr (i f) = Some (1000000000 + 1) /\
    forall j, (j < LANES)%nat ->
      lane (vec f) j = 1000000000 + 1 /\
      lane (vec f) j <= 1000000001 /\ 1000000001 < 2 ^ 32 /\
      (1000000000 = 1000000000 -> lane (vec f) j = 1000000001) /\
      wrap32 (lane (vec f) j + lane (_mm256_set1_epi32 1) j) = lane (vec f) j + 1.
Proof.
  split; [lia |]. apply (no_overflow_exercised 1000000000). lia.
Defined.

(** ** The loop from any frame *)

(** [n] iterations from any frame that leaves room for them: where the run
    stands, and what it has done to the counters and to every lane. *)
Lemma loop_advance (n : nat) (f : frame) :
  i f + Z.of_nat n <= 1000000000 ->
  exists g,
    loop n f =
    (if i f + Z.of_nat n <? 1000000000 then Running g else Exited g) /\
    i g = i f + Z.of_nat n /\
    adds g = (adds f + N.of_nat n)%N /\
    forall j, (j < LANES)%nat ->
      lane (vec g) j = (lane (vec f) j + Z.of_nat n) mod 2 ^ 32.
Proof.
  revert f. induction n as [| n IH]; intros f Hn.
  - exists f. replace (i f + Z.of_nat 0) with (i f) by lia.
    split; [| split; [lia | split; [lia |]]].
    + destruct (Z.ltb_spec (i f) 1000000000) as [H | H].
      * apply loop_pause. exact H.
      * apply loop_exit. exact H.
    + intros j _. pose proof (lane_range (vec f) j) as Hr.
      rewrite Z.add_0_r. symmetry. apply Z.mod_small. exact Hr.
  - rewrite loop_iterate by lia.
    destruct (IH {| i := i f + 1;
                    vec := _mm256_add_epi32 (vec f) (_mm256_set1_epi32 1);
                    adds := N.succ (adds f) |}) as [g [Hrun [Hi [Hadds Hlanes]]]].
    { cbn [i]. lia. }
    cbn [i vec adds] in Hrun, Hi, Hadds, Hlanes.
    exists g.
    replace (i f + Z.of_nat (S n)) with (i f + 1 + Z.of_nat n) by lia.
    split; [exact Hrun |]. split; [exact Hi |]. split; [lia |].
    intros j Hj. rewrite (Hlanes j Hj), lane_add_one by exact Hj.
    rewrite Z.add_mod_idemp_l by lia. f_equal. lia.
Qed.

(** ** Further properties of the loop and of the intrinsics it calls *)

(** X1: iterations compose.  From any frame with room for [n] more
    iterations, a budget of [n] leaves the counter [n] higher, [n] more adds
    counted, and every lane [n] higher modulo [2^32], whatever the
    accumulator held. *)
Theorem iterations_compose (n : nat) (f : frame) :
  i f + Z.of_nat n <= 1000000000 ->
  exists g,
    frame_of (loop n f) = Some g /\
    i g = i f + Z.of_nat n /\
    adds g = (adds f + N.of_nat n)%N /\
    forall j, (j < LANES)%nat ->
      lane (vec g) j = (lane (vec f) j + Z.of_nat n) mod 2 ^ 32.
Proof.
  intros Hn. destruct (loop_advance n f Hn) as [g [Hrun Hrest]].
  exists g. split; [| exact Hrest].
  rewrite Hrun. destruct (i f + Z.of_nat n <? 1000000000); reflexivity.
Qed.

Lemma iterations_compose_witness :
  i {| i := 5; vec := pack [4294967294; 5; 0; 7; 1; 2; 3; 4294967295];
       adds := 0 |} + Z.of_nat 3 <= 1000000000 /\
  exists g,
    frame_of (loop 3 {| i := 5;
                        vec := pack [4294967294; 5; 0; 7; 1; 2; 3; 4294967295];
                        adds := 0 |}) = Some g /\
    i g = 5 + Z.of_nat 3.
Proof.
  split; [cbn [i]; lia |].
  destruct (iterations_compose 3
              {| i := 5; vec := pack [4294967294; 5; 0; 7; 1; 2; 3; 4294967295];
                 adds := 0 |}) as [g [Hg [Hi _]]].
  - cbn [i]. lia.
  - exists g. split; [exact Hg | exact Hi].
Defined.

(** X2: the loop is left from any frame.  Whatever the counter and the
    accumulator at the loop head, a budget that covers the distance to
    1000000000 makes the loop exit, after exactly that many iterations:
    none when the counter is already at or past the bound (the frame is
    then untouched), and otherwise with the counter at 1000000000 and each
    lane advanced by the distance modulo [2^32]. *)
Theorem loop_exits_from_any_frame (fuel : nat) (f : frame) :
  1000000000 - i f <= Z.of_nat fuel ->
  exists g,
    loop fuel f = Exited g /\
    i g = Z.max (i f) 1000000000 /\
    Z.of_N (adds g) = Z.of_N (adds f) + Z.max 0 (1000000000 - i f) /\
    (1000000000 <= i f -> g = f) /\
    forall j, (j < LANES)%nat ->
      lane (vec g) j = (lane (vec f) j + Z.max 0 (1000000000 - i f)) mod 2 ^ 32.
Proof.
  intros Hfuel. at_loop_head f H.
  - destruct (loop_advance (Z.to_nat (1000000000 - i f)) f) as [g [Hrun [Hi [Ha Hl]]]];
      [lia |].
    replace (i f + Z.of_nat (Z.to_nat (1000000000 - i f))) with 1000000000
      in Hrun, Hi by lia.
    change (1000000000 <? 1000000000) with false in Hrun. cbv iota in Hrun.
    exists g.
    split; [apply (loop_fuel_mono _ _ _ Hrun); lia |].
    split; [lia |]. split; [lia |]. split; [lia |].
    intros j Hj. rewrite (Hl j Hj). f_equal. lia.
  - exists f. split; [apply loop_exit; exact H |].
    split; [lia |]. split; [lia |]. split; [reflexivity |].
    intros j _. pose proof (lane_range (vec f) j) as Hr.
    replace (Z.max 0 (1000000000 - i f)) with 0 by lia.
    rewrite Z.add_0_r. symmetry. apply Z.mod_small. exact Hr.
Qed.

Lemma loop_exits_from_any_frame_witness :
  1000000000 - i {| i := 999999998; vec := _mm256_set1_epi32 (-1); adds := 7 |}
  <= Z.of_nat 2 /\
  exists g,
    loop 2 {| i := 999999998; vec := _mm256_set1_epi32 (-1); adds := 7 |}
    = Exited g /\
    i g = Z.max 999999998 1000000000.
Proof.
  split; [cbn [i]; lia |].
  destruct (loop_exits_from_any_frame 2
              {| i := 999999998; vec := _mm256_set1_epi32 (-1); adds := 7 |})
    as [g [Hg [Hi _]]].
  - cbn [i]. lia.
  - exists g. split; [exact Hg | exact Hi].
Defined.

(** X4: [_mm256_add_epi32] never carries from one lane into another.  For
    any two operands the result is a 256-bit value whose lane [j] is the sum
    of the operands' lanes [j] modulo [2^32], so operands that agree on lane
    [j] give results that agree on lane [j], whatever the other lanes hold. *)
Theorem add_epi32_no_carry_across_lanes (a a' b b' : m256i) (j : nat) :
  (j < LANES)%nat ->
  lane a j = lane a' j -> lane b j = lane b' j ->
  lane (_mm256_add_epi32 a b) j = (lane a j + lane b j) mod 2 ^ 32 /\
  lane (_mm256_add_epi32 a b) j = lane (_mm256_add_epi32 a' b') j /\
  0 <= _mm256_add_epi32 a b < 2 ^ 256.
Proof.
  intros Hj Ha Hb. split; [apply lane_add; exact Hj |]. split.
  - rewrite !lane_add by exact Hj. rewrite Ha, Hb. reflexivity.
  - apply for_each_lane_range.
Qed.

Lemma add_epi32_no_carry_across_lanes_witness :
  (1 < LANES)%nat /\
  lane (_mm256_add_epi32 (pack [4294967295; 5; 0; 7; 1; 2; 3; 4])
                         (_mm256_set1_epi32 1)) 1
  = lane (_mm256_add_epi32 (pack [0; 5; 9; 9; 9; 9; 9; 9])
                           (_mm256_set1_epi32 1)) 1.
Proof.
  split; [unfold LANES; lia |].
  apply (add_epi32_no_carry_across_lanes
           (pack [4294967295; 5; 0; 7; 1; 2; 3; 4])
           (pack [0; 5; 9; 9; 9; 9; 9; 9])
           (_mm256_set1_epi32 1) (_mm256_set1_epi32 1) 1).
  - unfold LANES; lia.
  - vm_compute. reflexivity.
  - reflexivity.
Defined.

(** X5: [_mm256_add_epi32] is commutative and associative: the order of the
    operands, and the grouping of repeated adds, do not matter. *)
Theorem add_epi32_comm_assoc (a b c : m256i) :
  _mm256_add_epi32 a b = _mm256_add_epi32 b a /\
  _mm256_add_epi32 (_mm256_add_epi32 a b) c
  = _mm256_add_epi32 a (_mm256_add_epi32 b c).
Proof.
  split.
  - apply for_each_lane_ext. intros j _. f_equal. lia.
  - apply for_each_lane_ext. intros j Hj.
    rewrite !lane_add by exact Hj. unfold wrap32.
    rewrite Z.add_mod_idemp_l, Z.add_mod_idemp_r by lia. f_equal. lia.
Qed.

(** X6: adding two broadcasts gives the broadcast of the sum, for any two
    integers (the sum is reduced to 32 bits by the store); an accumulator
    whose lanes all agree therefore keeps them in agreement under the add of
    the loop body. *)
Theorem add_of_broadcasts (a b : Z) :
  _mm256_add_epi32 (_mm256_set1_epi32 a) (_mm256_set1_epi32 b)
  = _mm256_set1_epi32 (a + b) /\
  lanes (_mm256_add_epi32 (_mm256_set1_epi32 a) (_mm256_set1_epi32 b))
  = repeat ((a + b) mod 2 ^ 32) 8.
Proof.
  assert (H : _mm256_add_epi32 (_mm256_set1_epi32 a) (_mm256_set1_epi32 b)
              = _mm256_set1_epi32 (a + b)).
  { apply for_each_lane_ext. intros j Hj.
    rewrite !lane_set1 by exact Hj. unfold wrap32.
    rewrite <- Z.add_mod by lia. reflexivity. }
  split; [exact H |]. rewrite H. apply lanes_set1.
Qed.
